(** * Virtual trackball of modelplane.gfx.trackball

    A shallow embedding of [src/modelplane/gfx/trackball.py].  Python floats
    are idealised as real numbers.  The Python operations that can raise on
    a finite input ([/] with a zero divisor, [math.sqrt] and [math.asin]
    outside their domain) are modelled as partial functions into [option]:
    [None] stands for the raised exception.  The OpenGL calls are not
    modelled; the viewport size that [drag_to] and [zoom_to] read from
    [glGetIntegerv(GL_VIEWPORT)] becomes an explicit argument. *)

From Stdlib Require Import Reals Lra Psatz ZArith List Bool.
Import ListNotations.
Open Scope R_scope.

(** ** Python float primitives that may raise *)

(** [a / b]: raises [ZeroDivisionError] when [b == 0]. *)
Definition pdiv (a b : R) : option R :=
  if Req_dec_T b 0 then None else Some (a / b).

(** [math.sqrt]: raises [ValueError] on a negative argument. *)
Definition psqrt (a : R) : option R :=
  if Rlt_dec a 0 then None else Some (sqrt a).

(** [math.asin]: raises [ValueError] outside [-1, 1]. *)
Definition pasin (a : R) : option R :=
  if Rlt_dec a (-1) then None else if Rlt_dec 1 a then None else Some (asin a).

(** [math.fmod(a, 360.0)]: the remainder of the truncated quotient. *)
Definition trunc (r : R) : Z :=
  if Rle_dec 0 r then Int_part r else (- Int_part (- r))%Z.

Definition fmod360 (a : R) : R := a - IZR (trunc (a / 360)) * 360.

Definition obind {A B} (m : option A) (k : A -> option B) : option B :=
  match m with Some a => k a | None => None end.

Notation "'let?' x := m 'in' k" := (obind m (fun x => k))
  (at level 200, x name, m at level 100, k at level 200).

(** ** Vectors: the first three entries of a Python list *)

Record vec3 := V3 { v0 : R; v1 : R; v2 : R }.

Definition v_add (a b : vec3) : vec3 :=
  V3 (v0 a + v0 b) (v1 a + v1 b) (v2 a + v2 b).

Definition v_sub (a b : vec3) : vec3 :=
  V3 (v0 a - v0 b) (v1 a - v1 b) (v2 a - v2 b).

Definition v_mul (a : vec3) (s : R) : vec3 :=
  V3 (v0 a * s) (v1 a * s) (v2 a * s).

Definition v_dot (a b : vec3) : R :=
  v0 a * v0 b + v1 a * v1 b + v2 a * v2 b.

Definition v_cross (a b : vec3) : vec3 :=
  V3 (v1 a * v2 b - v2 a * v1 b)
     (v2 a * v0 b - v0 a * v2 b)
     (v0 a * v1 b - v1 a * v0 b).

(** [math.sqrt] of a dot product with itself never raises. *)
Definition v_length (a : vec3) : R := sqrt (v_dot a a).

(** [try: return _v_mul(v, 1.0 / _v_length(v)) except ZeroDivisionError: return v] *)
Definition v_normalize (a : vec3) : vec3 :=
  match pdiv 1 (v_length a) with
  | Some s => v_mul a s
  | None => a
  end.

(** ** Quaternions: Python lists [x, y, z, w] *)

Record quat := Q4 { q0 : R; q1 : R; q2 : R; q3 : R }.

(** The vector helpers applied to a quaternion read its first three entries. *)
Definition qv (q : quat) : vec3 := V3 (q0 q) (q1 q) (q2 q).

(** [tf.append(w)] *)
Definition q_append (v : vec3) (w : R) : quat := Q4 (v0 v) (v1 v) (v2 v) w.

Definition q_add (a b : quat) : quat :=
  let t1 := v_mul (qv a) (q3 b) in
  let t2 := v_mul (qv b) (q3 a) in
  let t3 := v_cross (qv b) (qv a) in
  let tf := v_add t1 t2 in
  let tf := v_add t3 tf in
  q_append tf (q3 a * q3 b - v_dot (qv a) (qv b)).

Definition q_mul (q : quat) (s : R) : quat :=
  Q4 (q0 q * s) (q1 q * s) (q2 q * s) (q3 q * s).

Definition q_dot (a b : quat) : R :=
  q0 a * q0 b + q1 a * q1 b + q2 a * q2 b + q3 a * q3 b.

Definition q_length (q : quat) : R := sqrt (q_dot q q).

Definition q_normalize (q : quat) : quat :=
  match pdiv 1 (q_length q) with
  | Some s => q_mul q s
  | None => q
  end.

Definition q_from_axis_angle (v : vec3) (phi : R) : quat :=
  q_append (v_mul (v_normalize v) (sin (phi / 2))) (cos (phi / 2)).

(** The 16 entries of [_q_rotmatrix(q)], in list order. *)
Definition q_rotmatrix (q : quat) : list R :=
  [ 1 - 2 * (q1 q * q1 q + q2 q * q2 q);
    2 * (q0 q * q1 q - q2 q * q3 q);
    2 * (q2 q * q0 q + q1 q * q3 q);
    0;
    2 * (q0 q * q1 q + q2 q * q3 q);
    1 - 2 * (q2 q * q2 q + q0 q * q0 q);
    2 * (q1 q * q2 q - q0 q * q3 q);
    0;
    2 * (q2 q * q0 q - q1 q * q3 q);
    2 * (q1 q * q2 q + q0 q * q3 q);
    1 - 2 * (q1 q * q1 q + q0 q * q0 q);
    0;
    0; 0; 0; 1 ].

Definition q_identity : quat := Q4 0 0 0 1.

(** The quaternion with its third entry overwritten: [q[2] = 0.0]. *)
Definition set_z (q : quat) : quat := Q4 (q0 q) (q1 q) 0 (q3 q).

(** ** The Trackball object *)

(** [self._RENORMCOUNT] and [self._TRACKBALLSIZE], fixed by [__init__]. *)
Definition RENORMCOUNT : nat := 97.
Definition TRACKBALLSIZE : R := 0.8.

Record trackball := Trackball {
  rotation : quat;
  zoom : R;
  distance : R;
  count : nat;
  matrix : list R;
  theta : R;
  phi : R;
  pan_x : R;
  pan_y : R
}.

Definition set_orientation (st : trackball) (theta phi : R) : trackball :=
  let angle := theta * (PI / 180) in
  let sine := sin (0.5 * angle) in
  let xrot := Q4 (1 * sine) 0 0 (cos (0.5 * angle)) in
  let angle := phi * (PI / 180) in
  let sine := sin (0.5 * angle) in
  let zrot := Q4 0 0 sine (cos (0.5 * angle)) in
  let r := q_add xrot zrot in
  Trackball r (zoom st) (distance st) (count st) (q_rotmatrix r)
            theta phi (pan_x st) (pan_y st).

(** [Trackball(theta, phi, zoom, distance)]; [self._matrix = None] is
    overwritten by [_set_orientation] before the constructor returns. *)
Definition init (theta0 phi0 zoom0 distance0 : R) : trackball :=
  let st := Trackball q_identity zoom0 distance0 0%nat [] theta0 phi0 0 0 in
  let st := set_orientation st theta0 phi0 in
  Trackball (rotation st) (zoom st) (distance st) (count st) (matrix st)
            (theta st) (phi st) 0 0.

Definition get_orientation (st : trackball) : option (R * R) :=
  let q := rotation st in
  let? ax0 := pdiv (2 * (q0 q * q1 q + q2 q * q3 q))
                   (1 - 2 * (q1 q * q1 q + q2 q * q2 q)) in
  let ax := atan ax0 * 180 / PI in
  let? az0 := pdiv (2 * (q0 q * q3 q + q1 q * q2 q))
                   (1 - 2 * (q2 q * q2 q + q3 q * q3 q)) in
  let az := atan az0 * 180 / PI in
  Some (- az, ax).

(** The [theta] and [phi] getters store the decomposed angles back. *)
Definition get_angles (st : trackball) : option trackball :=
  let? o := get_orientation st in
  Some (Trackball (rotation st) (zoom st) (distance st) (count st) (matrix st)
                  (fst o) (snd o) (pan_x st) (pan_y st)).

Definition get_theta (st : trackball) : option (R * trackball) :=
  let? st' := get_angles st in Some (theta st', st').

Definition get_phi (st : trackball) : option (R * trackball) :=
  let? st' := get_angles st in Some (phi st', st').

Definition set_theta (st : trackball) (t : R) : trackball :=
  set_orientation st (fmod360 t) (fmod360 (phi st)).

Definition set_phi (st : trackball) (p : R) : trackball :=
  set_orientation st (fmod360 (theta st)) (fmod360 p).

Definition set_zoom (st : trackball) (z : R) : trackball :=
  let z := if Rlt_dec z 0.25 then 0.25 else z in
  let z := if Rgt_dec z 10 then 10 else z in
  Trackball (rotation st) z (distance st) (count st) (matrix st)
            (theta st) (phi st) (pan_x st) (pan_y st).

Definition set_distance (st : trackball) (d : R) : trackball :=
  let d := if Rlt_dec d 1 then 1 else d in
  Trackball (rotation st) (zoom st) d (count st) (matrix st)
            (theta st) (phi st) (pan_x st) (pan_y st).

(** The source's literals [0.70710678118654752440] and
    [1.41421356237309504880] are [1/sqrt 2] and [sqrt 2] to 21 significant
    digits; Python reads each as the double nearest to that number, the
    same double as [math.sqrt(0.5)] and [math.sqrt(2)], which this model
    of doubles as reals takes at its exact value. *)
Definition SQRT1_2 : R := 1 / sqrt 2.
Definition SQRT2 : R := sqrt 2.

(** [Trackball._project(r, x, y)]. *)
Definition project (r x y : R) : option R :=
  let? d := psqrt (x * x + y * y) in
  if Rlt_dec d (r * SQRT1_2) then psqrt (r * r - d * d)
  else
    let? t := pdiv r SQRT2 in
    pdiv (t * t) d.

Definition rotate (x y dx dy : R) : option quat :=
  match Req_dec_T dx 0, Req_dec_T dy 0 with
  | left _, left _ => Some (Q4 0 0 0 1)
  | _, _ =>
    let? zl := project TRACKBALLSIZE x y in
    let last := V3 x y zl in
    let? zn := project TRACKBALLSIZE (x + dx) (y + dy) in
    let new := V3 (x + dx) (y + dy) zn in
    let a := v_cross new last in
    let d := v_sub last new in
    let? t := pdiv (v_length d) (2 * TRACKBALLSIZE) in
    let t := if Rgt_dec t 1 then 1 else t in
    let t := if Rlt_dec t (-1) then -1 else t in
    let? s := pasin t in
    let phi := 2 * s in
    Some (q_from_axis_angle a phi)
  end.

(** [drag_to(x, y, dx, dy)] in a viewport of width [w] and height [h]. *)
Definition drag_to (w h x y dx dy : R) (st : trackball) : option trackball :=
  let? x' := pdiv (x * 2 - w) w in
  let? dx' := pdiv (2 * dx) w in
  let? y' := pdiv (y * 2 - h) h in
  let? dy' := pdiv (2 * dy) h in
  let? q := rotate x' y' dx' dy' in
  let r := set_z (q_add q (rotation st)) in
  let c := S (count st) in
  let rc := if Nat.ltb RENORMCOUNT c then (q_normalize r, 0%nat) else (r, c) in
  Some (Trackball (fst rc) (zoom st) (distance st) (snd rc) (q_rotmatrix (fst rc))
                  (theta st) (phi st) (pan_x st) (pan_y st)).

(** [zoom_to(x, y, dx, dy)] in a viewport of height [h]. *)
Definition zoom_to (h x y dx dy : R) (st : trackball) : option trackball :=
  let? s := pdiv (5 * dy) h in
  Some (set_zoom st (zoom st - s)).

Definition pan_to (x y dx dy : R) (st : trackball) : trackball :=
  Trackball (rotation st) (zoom st) (distance st) (count st) (matrix st)
            (theta st) (phi st) (pan_x st + dx * 0.1) (pan_y st + dy * 0.1).

(** ** The public operations, as a step function *)

Inductive op :=
| Drag (w h x y dx dy : R)
| ZoomTo (h x y dx dy : R)
| PanTo (x y dx dy : R)
| SetZoom (z : R)
| SetDistance (d : R)
| SetTheta (t : R)
| SetPhi (p : R)
| GetTheta
| GetPhi.

Definition step (o : op) (st : trackball) : option trackball :=
  match o with
  | Drag w h x y dx dy => drag_to w h x y dx dy st
  | ZoomTo h x y dx dy => zoom_to h x y dx dy st
  | PanTo x y dx dy => Some (pan_to x y dx dy st)
  | SetZoom z => Some (set_zoom st z)
  | SetDistance d => Some (set_distance st d)
  | SetTheta t => Some (set_theta st t)
  | SetPhi p => Some (set_phi st p)
  | GetTheta => let? r := get_theta st in Some (snd r)
  | GetPhi => let? r := get_phi st in Some (snd r)
  end.

Fixpoint run (os : list op) (st : trackball) : option trackball :=
  match os with
  | [] => Some st
  | o :: os => let? st' := step o st in run os st'
  end.

(** ** Auxiliary predicates on operations *)

(** Operations that write the zoom: the [zoom] setter and [zoom_to]. *)
Definition touches_zoom (o : op) : bool :=
  match o with ZoomTo _ _ _ _ _ | SetZoom _ => true | _ => false end.

(** The only operation that writes the distance: its setter. *)
Definition touches_distance (o : op) : bool :=
  match o with SetDistance _ => true | _ => false end.

Definition is_zoom_to (o : op) : bool :=
  match o with ZoomTo _ _ _ _ _ => true | _ => false end.

(** The documented ranges of the zoom and distance fields. *)
Definition in_range (st : trackball) : Prop :=
  0.25 <= zoom st <= 10 /\ 1 <= distance st.

(** Entry [(i, j)] of the matrix stored as the 16-entry list [m[i*4+j]]. *)
Definition mat_entry (m : list R) (i j : nat) : R := nth (i * 4 + j) m 0.

(** Dot product of rows [i] and [j] of the upper-left 3x3 block. *)
Definition row_dot (m : list R) (i j : nat) : R :=
  mat_entry m i 0 * mat_entry m j 0 + mat_entry m i 1 * mat_entry m j 1 +
  mat_entry m i 2 * mat_entry m j 2.

(** [_q_rotmatrix] with each constant 1 of the rotation block written as
    the squared length [q_dot q q]; equal to it on unit quaternions. *)
Definition q_rotmatrix_h (q : quat) : list R :=
  let n := q_dot q q in
  [ n - 2 * (q1 q * q1 q + q2 q * q2 q);
    2 * (q0 q * q1 q - q2 q * q3 q);
    2 * (q2 q * q0 q + q1 q * q3 q);
    0;
    2 * (q0 q * q1 q + q2 q * q3 q);
    n - 2 * (q2 q * q2 q + q0 q * q0 q);
    2 * (q1 q * q2 q - q0 q * q3 q);
    0;
    2 * (q2 q * q0 q - q1 q * q3 q);
    2 * (q1 q * q2 q + q0 q * q3 q);
    n - 2 * (q1 q * q1 q + q0 q * q0 q);
    0;
    0; 0; 0; 1 ].

(** The pan offset an operation adds: only [pan_to] has one. *)
Definition pan_dx (o : op) : R := match o with PanTo _ _ dx _ => dx * 0.1 | _ => 0 end.
Definition pan_dy (o : op) : R := match o with PanTo _ _ _ dy => dy * 0.1 | _ => 0 end.

Definition pan_sum (f : op -> R) (os : list op) : R :=
  fold_right (fun o acc => f o + acc) 0 os.

(** The 16 entries of the identity matrix. *)
Definition identity16 : list R :=
  [1; 0; 0; 0; 0; 1; 0; 0; 0; 0; 1; 0; 0; 0; 0; 1].

(** Entry [(i, j)] of the product of two 4x4 row-major matrices. *)
Definition mat_mul_entry (m1 m2 : list R) (i j : nat) : R :=
  mat_entry m1 i 0 * mat_entry m2 0 j + mat_entry m1 i 1 * mat_entry m2 1 j +
  mat_entry m1 i 2 * mat_entry m2 2 j + mat_entry m1 i 3 * mat_entry m2 3 j.

(** [push()] in a viewport of width [vw] and height [vh]: the arguments it
    passes to [glFrustum], to [glTranslate] and to [glMultMatrixf]. The
    matrix-mode switches and matrix-stack pushes around them take no data
    from the trackball. [viewport[2] / float(viewport[3])] raises
    [ZeroDivisionError] for a zero height. *)
Definition push (vw vh : R) (st : trackball) :
    option ((R * R * R * R * R * R) * (R * R * R) * list R) :=
  let? aspect := pdiv vw vh in
  let aperture := 35 in
  let near := 0.1 in
  let far := 100 in
  let top := tan (aperture * PI / 360) * near * zoom st in
  let bottom := - top in
  let left := aspect * bottom in
  let right := aspect * top in
  Some ((left, right, bottom, top, near, far),
        (pan_x st, pan_y st, - distance st),
        matrix st).

(** * Lemmas *)

Lemma obind_Some {A B} (m : option A) (k : A -> option B) b :
  obind m k = Some b -> exists a, m = Some a /\ k a = Some b.
Proof. destruct m as [a|]; simpl; [eauto | discriminate]. Qed.

Lemma obind_None {A B} (m : option A) (k : A -> option B) :
  obind m k = None -> m = None \/ exists a, m = Some a /\ k a = None.
Proof. destruct m as [a|]; simpl; eauto. Qed.

Lemma pdiv_Some a b : b <> 0 -> pdiv a b = Some (a / b).
Proof. intros Hb; unfold pdiv; destruct (Req_dec_T b 0); congruence. Qed.

Lemma pdiv_None a b : pdiv a b = None <-> b = 0.
Proof. unfold pdiv; destruct (Req_dec_T b 0); split; congruence. Qed.

Lemma psqrt_Some a : 0 <= a -> psqrt a = Some (sqrt a).
Proof. intros Ha; unfold psqrt; destruct (Rlt_dec a 0); [lra | reflexivity]. Qed.

Lemma pasin_Some a : -1 <= a <= 1 -> pasin a = Some (asin a).
Proof.
  intros Ha; unfold pasin.
  destruct (Rlt_dec a (-1)); [lra|]; destruct (Rlt_dec 1 a); [lra | reflexivity].
Qed.

(** Peel [let?] binders off an equation [obind m k = Some b]. *)
Ltac inv_bind H :=
  match type of H with
  | obind ?m _ = Some _ =>
    let a := fresh "a" in let Hm := fresh "Hm" in
    apply obind_Some in H; destruct H as [a [Hm H]]; inv_bind H
  | _ => idtac
  end.

Lemma q_dot_mul q s : q_dot (q_mul q s) (q_mul q s) = s * s * q_dot q q.
Proof. destruct q; unfold q_dot, q_mul; simpl; ring. Qed.

Lemma v_dot_mul v s : v_dot (v_mul v s) (v_mul v s) = s * s * v_dot v v.
Proof. destruct v; unfold v_dot, v_mul; simpl; ring. Qed.

Lemma q_dot_nonneg q : 0 <= q_dot q q.
Proof. destruct q; unfold q_dot; simpl; nra. Qed.

Lemma v_dot_nonneg v : 0 <= v_dot v v.
Proof. destruct v; unfold v_dot; simpl; nra. Qed.

(** Scaling by the reciprocal of a nonzero square-root length gives length 1. *)
Lemma sqrt_rescale D : 0 <= D -> sqrt D <> 0 -> sqrt (1 / sqrt D * (1 / sqrt D) * D) = 1.
Proof.
  intros HD Hs.
  assert (Hss : sqrt D * sqrt D = D) by (apply sqrt_sqrt; exact HD).
  replace (1 / sqrt D * (1 / sqrt D) * D) with 1 by (rewrite <- Hss at 3; field; exact Hs).
  apply sqrt_1.
Qed.

Lemma q_normalize_cases q :
  (q_length q <> 0 /\ q_length (q_normalize q) = 1) \/
  (q_length q = 0 /\ q_normalize q = q).
Proof.
  unfold q_normalize.
  destruct (Req_dec_T (q_length q) 0) as [H0|H0].
  - right; split; [exact H0|]. rewrite (proj2 (pdiv_None 1 _) H0); reflexivity.
  - left; split; [exact H0|]. rewrite pdiv_Some by exact H0.
    unfold q_length in *; rewrite q_dot_mul. apply sqrt_rescale; [apply q_dot_nonneg | exact H0].
Qed.

Lemma v_normalize_cases v :
  (v_length v <> 0 /\ v_length (v_normalize v) = 1) \/
  (v_length v = 0 /\ v_normalize v = v).
Proof.
  unfold v_normalize.
  destruct (Req_dec_T (v_length v) 0) as [H0|H0].
  - right; split; [exact H0|]. rewrite (proj2 (pdiv_None 1 _) H0); reflexivity.
  - left; split; [exact H0|]. rewrite pdiv_Some by exact H0.
    unfold v_length in *; rewrite v_dot_mul. apply sqrt_rescale; [apply v_dot_nonneg | exact H0].
Qed.

Lemma set_zoom_range st z : 0.25 <= zoom (set_zoom st z) <= 10.
Proof.
  unfold set_zoom; simpl.
  destruct (Rlt_dec z 0.25); destruct (Rgt_dec _ 10); lra.
Qed.

Lemma set_zoom_clamp st z : zoom (set_zoom st z) = Rmin 10 (Rmax 0.25 z).
Proof.
  unfold set_zoom; simpl.
  destruct (Rlt_dec z 0.25); destruct (Rgt_dec _ 10);
    unfold Rmax, Rmin; repeat destruct Rle_dec; lra.
Qed.

Lemma set_distance_range st d : 1 <= distance (set_distance st d).
Proof. unfold set_distance; simpl; destruct (Rlt_dec d 1); lra. Qed.

(** Every operation other than the zoom writers keeps the zoom, and every
    operation other than the distance setter keeps the distance. *)
Lemma get_angles_keeps st st' :
  get_angles st = Some st' -> zoom st' = zoom st /\ distance st' = distance st.
Proof. unfold get_angles; intros H; inv_bind H; inversion H; subst; simpl; auto. Qed.

Lemma step_keeps_fields o st st' :
  step o st = Some st' ->
  (touches_zoom o = false -> zoom st' = zoom st) /\
  (touches_distance o = false -> distance st' = distance st).
Proof.
  destruct o; simpl; intros H; unfold drag_to, zoom_to, get_theta, get_phi in H;
    repeat match type of H with obind _ _ = Some _ => inv_bind H end;
    try (inv_bind Hm; destruct (get_angles_keeps _ _ Hm0) as [Hz Hd];
         inversion Hm; inversion H; subst; simpl; split; intros; assumption);
    inversion H; subst; simpl; split; intros; try discriminate; reflexivity.
Qed.

Lemma step_in_range o st st' :
  in_range st -> step o st = Some st' -> in_range st'.
Proof.
  intros Hr H.
  destruct (touches_zoom o) eqn:Ez; destruct (touches_distance o) eqn:Ed;
    try (destruct o; discriminate).
  - destruct o; try discriminate; simpl in H.
    + unfold zoom_to in H; inv_bind H. inversion H; subst. split; [apply set_zoom_range | apply Hr].
    + inversion H; subst. split; [apply set_zoom_range | apply Hr].
  - destruct o; try discriminate; simpl in H. inversion H; subst.
    split; [apply Hr | apply set_distance_range].
  - destruct (step_keeps_fields o st st' H) as [Hz Hd].
    unfold in_range; rewrite (Hz Ez), (Hd Ed); exact Hr.
Qed.

Lemma run_in_range os st st' :
  in_range st -> run os st = Some st' -> in_range st'.
Proof.
  revert st; induction os as [|o os IH]; simpl; intros st Hr H.
  - inversion H; subst; exact Hr.
  - inv_bind H. apply (IH a); [apply (step_in_range o st); assumption | exact H].
Qed.

Lemma init_fields t p z d : zoom (init t p z d) = z /\ distance (init t p z d) = d.
Proof. split; reflexivity. Qed.

Lemma run_keeps_fields os st st' :
  forallb (fun o => negb (touches_zoom o || touches_distance o)) os = true ->
  run os st = Some st' -> zoom st' = zoom st /\ distance st' = distance st.
Proof.
  revert st; induction os as [|o os IH]; simpl; intros st Hos Hrun.
  - inversion Hrun; subst; auto.
  - apply andb_prop in Hos; destruct Hos as [Ho Hos].
    apply negb_true_iff, orb_false_iff in Ho; destruct Ho as [Hoz Hod].
    inv_bind Hrun. destruct (step_keeps_fields o st a Hm) as [Hz Hd].
    destruct (IH a Hos Hrun) as [Hz' Hd']. rewrite Hz', Hd', (Hz Hoz), (Hd Hod); auto.
Qed.

(** The source's decimal literals as fractions, for [ring] and [field]. *)
Lemma dec_half : 0.5 = 1 / 2.
Proof. lra. Qed.

Lemma dec_size : TRACKBALLSIZE = 4 / 5.
Proof. unfold TRACKBALLSIZE; lra. Qed.

Lemma pdiv_Some_inv a b c : pdiv a b = Some c -> b <> 0 /\ c = a / b.
Proof. unfold pdiv; destruct (Req_dec_T b 0); intros H; inversion H; auto. Qed.

Lemma q_add_id_l q : q_add q_identity q = q.
Proof.
  destruct q; unfold q_add, q_identity, q_append, qv, v_add, v_mul, v_cross, v_dot;
    simpl; f_equal; ring.
Qed.

Lemma q_normalize_z0 q : q2 q = 0 -> q2 (q_normalize q) = 0.
Proof.
  intros H; unfold q_normalize; destruct (pdiv 1 (q_length q)); simpl; [rewrite H; ring | exact H].
Qed.

(** What a successful [drag_to] does. *)
Lemma drag_to_Some w h x y dx dy st st' :
  drag_to w h x y dx dy st = Some st' ->
  w <> 0 /\ h <> 0 /\
  exists q, rotate ((x * 2 - w) / w) ((y * 2 - h) / h) (2 * dx / w) (2 * dy / h) = Some q /\
    rotation st' = (if Nat.ltb RENORMCOUNT (S (count st))
                    then q_normalize (set_z (q_add q (rotation st)))
                    else set_z (q_add q (rotation st))) /\
    count st' = (if Nat.ltb RENORMCOUNT (S (count st)) then 0%nat else S (count st)).
Proof.
  unfold drag_to; intros H; inv_bind H.
  apply pdiv_Some_inv in Hm; apply pdiv_Some_inv in Hm0;
  apply pdiv_Some_inv in Hm1; apply pdiv_Some_inv in Hm2.
  destruct Hm as [Hw ->]; destruct Hm0 as [_ ->]; destruct Hm1 as [Hh ->];
    destruct Hm2 as [_ ->].
  split; [exact Hw|]; split; [exact Hh|]. exists a3; split; [exact Hm3|].
  destruct (Nat.ltb RENORMCOUNT (S (count st))); inversion H; subst; simpl; auto.
Qed.

(** A successful [drag_to] from a nonzero viewport, and what it does. *)
Lemma drag_to_exists w h x y dx dy st q :
  w <> 0 -> h <> 0 ->
  rotate ((x * 2 - w) / w) ((y * 2 - h) / h) (2 * dx / w) (2 * dy / h) = Some q ->
  drag_to w h x y dx dy st =
    Some (let r := set_z (q_add q (rotation st)) in
          let rc := if Nat.ltb RENORMCOUNT (S (count st)) then (q_normalize r, 0%nat)
                    else (r, S (count st)) in
          Trackball (fst rc) (zoom st) (distance st) (snd rc) (q_rotmatrix (fst rc))
                    (theta st) (phi st) (pan_x st) (pan_y st)).
Proof.
  intros Hw Hh Hq; unfold drag_to.
  rewrite !pdiv_Some by assumption; simpl. rewrite Hq. reflexivity.
Qed.

Lemma rotate_zero x y : rotate x y 0 0 = Some q_identity.
Proof.
  unfold rotate; destruct (Req_dec_T 0 0); [reflexivity | congruence].
Qed.

Lemma step_count o st st' : (count st <= 97)%nat -> step o st = Some st' -> (count st' <= 97)%nat.
Proof.
  intros Hc H; destruct o; simpl in H.
  - apply drag_to_Some in H; destruct H as [_ [_ [q [_ [_ Hc']]]]]; rewrite Hc'.
    unfold RENORMCOUNT. destruct (Nat.ltb_spec 97 (S (count st))); lia.
  - unfold zoom_to in H; inv_bind H; inversion H; subst; exact Hc.
  - inversion H; subst; exact Hc.
  - inversion H; subst; exact Hc.
  - inversion H; subst; exact Hc.
  - inversion H; subst; exact Hc.
  - inversion H; subst; exact Hc.
  - inv_bind H; unfold get_theta, get_angles in Hm; inv_bind Hm; inv_bind Hm0.
    inversion Hm0; inversion Hm; inversion H; subst; exact Hc.
  - inv_bind H; unfold get_phi, get_angles in Hm; inv_bind Hm; inv_bind Hm0.
    inversion Hm0; inversion Hm; inversion H; subst; exact Hc.
Qed.

Lemma run_count os st st' : (count st <= 97)%nat -> run os st = Some st' -> (count st' <= 97)%nat.
Proof.
  revert st; induction os as [|o os IH]; simpl; intros st Hc H.
  - inversion H; subst; exact Hc.
  - inv_bind H. exact (IH a (step_count o st a Hc Hm) H).
Qed.

Lemma init00_rotation z d : rotation (init 0 0 z d) = q_identity.
Proof.
  unfold init, set_orientation; simpl.
  replace (0.5 * (0 * (PI / 180))) with 0 by ring. rewrite sin_0, cos_0.
  unfold q_add, q_append, qv, v_add, v_mul, v_cross, v_dot, q_identity; simpl; f_equal; ring.
Qed.

Lemma sqrt2_facts : sqrt 2 * sqrt 2 = 2 /\ 1 < sqrt 2.
Proof.
  split; [apply sqrt_sqrt; lra|].
  rewrite <- sqrt_1 at 1. apply sqrt_lt_1_alt; lra.
Qed.

Lemma sqrt2_bounds : 0 < sqrt 2 /\ sqrt 2 < 2 /\ 0 < 1 / sqrt 2 < 1.
Proof.
  destruct sqrt2_facts as [H2 H1].
  split; [lra|]. split; [nra|]. split.
  - apply Rdiv_lt_0_compat; lra.
  - apply Rmult_lt_reg_r with (sqrt 2); [lra|].
    replace (1 / sqrt 2 * sqrt 2) with 1 by (field; lra). lra.
Qed.

Lemma mul_SQRT1_2 r : r * SQRT1_2 = r / sqrt 2.
Proof. unfold SQRT1_2. destruct sqrt2_bounds as [H _]. field; lra. Qed.

(** A point is inside the sphere part when twice its squared distance is
    below the squared radius. *)
Lemma lt_div_sqrt2 d r : 0 <= d -> 0 < r -> 2 * (d * d) < r * r -> d < r / sqrt 2.
Proof.
  intros Hd Hr H. destruct sqrt2_facts as [H2 H1].
  apply Rmult_lt_reg_r with (sqrt 2); [lra|].
  replace (r / sqrt 2 * sqrt 2) with r by (field; lra).
  assert (Hs : (d * sqrt 2) * (d * sqrt 2) < r * r)
    by (replace ((d * sqrt 2) * (d * sqrt 2)) with (d * d * (sqrt 2 * sqrt 2)) by ring;
        rewrite H2; lra).
  nra.
Qed.

(** [_project] with the trackball radius, branch by branch. *)
Lemma project_cases x y :
  let d := sqrt (x * x + y * y) in
  (d < TRACKBALLSIZE / sqrt 2 ->
     project TRACKBALLSIZE x y = Some (sqrt (TRACKBALLSIZE * TRACKBALLSIZE - d * d))) /\
  (TRACKBALLSIZE / sqrt 2 <= d ->
     project TRACKBALLSIZE x y =
       Some (TRACKBALLSIZE / sqrt 2 * (TRACKBALLSIZE / sqrt 2) / d)).
Proof.
  intros d. unfold project.
  rewrite psqrt_Some by nra. simpl. fold d. rewrite mul_SQRT1_2.
  assert (Hd : 0 <= d) by apply sqrt_pos.
  destruct sqrt2_bounds as [Hs [Hs2 [Hi1 Hi2]]].
  assert (Hr : TRACKBALLSIZE / sqrt 2 < TRACKBALLSIZE).
  { replace (TRACKBALLSIZE / sqrt 2) with (TRACKBALLSIZE * (1 / sqrt 2)) by (field; lra).
    unfold TRACKBALLSIZE; nra. }
  assert (Hr0 : 0 < TRACKBALLSIZE / sqrt 2)
    by (apply Rdiv_lt_0_compat; [unfold TRACKBALLSIZE|]; lra).
  split; intros Hlt.
  - destruct (Rlt_dec d (TRACKBALLSIZE / sqrt 2)); [|lra].
    apply psqrt_Some. unfold TRACKBALLSIZE in *; nra.
  - destruct (Rlt_dec d (TRACKBALLSIZE / sqrt 2)); [lra|].
    unfold SQRT2. rewrite pdiv_Some by lra. simpl. rewrite pdiv_Some by lra. reflexivity.
Qed.

Lemma project_total x y : exists z, project TRACKBALLSIZE x y = Some z.
Proof.
  destruct (project_cases x y) as [H1 H2].
  destruct (Rlt_dec (sqrt (x * x + y * y)) (TRACKBALLSIZE / sqrt 2)) as [h|h].
  - eexists; exact (H1 h).
  - eexists; apply H2; lra.
Qed.

Lemma rotate_total x y dx dy : exists q, rotate x y dx dy = Some q.
Proof.
  unfold rotate.
  destruct (Req_dec_T dx 0); destruct (Req_dec_T dy 0); try (eexists; reflexivity);
    destruct (project_total x y) as [zl Hl]; rewrite Hl; simpl;
    destruct (project_total (x + dx) (y + dy)) as [zn Hn]; rewrite Hn; simpl;
    rewrite pdiv_Some by (unfold TRACKBALLSIZE; lra); simpl;
    rewrite pasin_Some by (destruct (Rgt_dec _ 1); destruct (Rlt_dec _ (-1)); lra);
    simpl; eexists; reflexivity.
Qed.

Lemma drag_to_None w h x y dx dy st : drag_to w h x y dx dy st = None <-> w = 0 \/ h = 0.
Proof.
  split.
  - intros H. destruct (Req_dec_T w 0) as [Hw|Hw]; [left; exact Hw|].
    destruct (Req_dec_T h 0) as [Hh|Hh]; [right; exact Hh|].
    destruct (rotate_total ((x * 2 - w) / w) ((y * 2 - h) / h) (2 * dx / w) (2 * dy / h))
      as [q Hq].
    rewrite (drag_to_exists w h x y dx dy st q Hw Hh Hq) in H; discriminate.
  - intros [->| ->]; unfold drag_to; rewrite (proj2 (pdiv_None _ 0) eq_refl); simpl;
      [reflexivity|]. destruct (pdiv _ w); simpl; [|reflexivity].
    destruct (pdiv _ w); simpl; [|reflexivity]. reflexivity.
Qed.

Lemma zoom_to_None h x y dx dy st : zoom_to h x y dx dy st = None <-> h = 0.
Proof.
  unfold zoom_to. rewrite <- (pdiv_None (5 * dy) h).
  destruct (pdiv (5 * dy) h); simpl; split; congruence.
Qed.

Lemma get_orientation_None st :
  get_orientation st = None <->
  1 - 2 * (q1 (rotation st) * q1 (rotation st) + q2 (rotation st) * q2 (rotation st)) = 0 \/
  1 - 2 * (q2 (rotation st) * q2 (rotation st) + q3 (rotation st) * q3 (rotation st)) = 0.
Proof.
  unfold get_orientation. set (q := rotation st).
  rewrite <- (pdiv_None (2 * (q0 q * q1 q + q2 q * q3 q))),
          <- (pdiv_None (2 * (q0 q * q3 q + q1 q * q2 q))).
  destruct (pdiv (2 * (q0 q * q1 q + q2 q * q3 q)) _); simpl.
  - destruct (pdiv _ _); simpl; split; intros H; try discriminate.
    + destruct H; discriminate.
    + right; reflexivity.
    + reflexivity.
  - split; intros; [left|]; reflexivity.
Qed.

Lemma init90_rotation z d : rotation (init 90 0 z d) = Q4 (1 / sqrt 2) 0 0 (1 / sqrt 2).
Proof.
  unfold init, set_orientation; simpl.
  replace (0.5 * (90 * (PI / 180))) with (PI / 4) by (rewrite dec_half; field).
  replace (0.5 * (0 * (PI / 180))) with 0 by ring.
  rewrite sin_0, cos_0, sin_PI4, cos_PI4.
  unfold q_add, q_append, qv, v_add, v_mul, v_cross, v_dot; simpl; f_equal; ring.
Qed.

Lemma q_add_id_r q : q_add q q_identity = q.
Proof.
  destruct q; unfold q_add, q_identity, q_append, qv, v_add, v_mul, v_cross, v_dot;
    simpl; f_equal; ring.
Qed.

Lemma sqrt_lt_of_sq a b : 0 <= a -> 0 <= b -> a < b * b -> sqrt a < b.
Proof.
  intros Ha Hb H. rewrite <- (sqrt_square b Hb). apply sqrt_lt_1_alt; lra.
Qed.

Lemma project_at x y : x * x + y * y = 1664 / 5625 -> project TRACKBALLSIZE x y = Some (44 / 75).
Proof.
  intros H. destruct (project_cases x y) as [H1 _]. rewrite H in H1. rewrite H1.
  - assert (Hs : sqrt (1664 / 5625) * sqrt (1664 / 5625) = 1664 / 5625) by (apply sqrt_sqrt; lra).
    rewrite Hs. f_equal.
    replace (TRACKBALLSIZE * TRACKBALLSIZE - 1664 / 5625) with (44 / 75 * (44 / 75))
      by (unfold TRACKBALLSIZE; lra).
    apply sqrt_square; lra.
  - apply lt_div_sqrt2; [apply sqrt_pos | unfold TRACKBALLSIZE; lra|].
    rewrite sqrt_sqrt by lra. unfold TRACKBALLSIZE; lra.
Qed.

(** A drag whose motion turns about the viewing axis: from [(8/15, 8/75)] to
    [(-8/75, 8/15)], both on the sphere part at height [44/75].  Composed
    with the identity and with its z entry zeroed, its quaternion has squared
    length below 0.96. *)
Lemma rotate_roll :
  exists q, rotate ((115 * 2 - 150) / 150) ((83 * 2 - 150) / 150) (2 * -48 / 150) (2 * 32 / 150) = Some q
            /\ q_dot (set_z (q_add q q_identity)) (set_z (q_add q q_identity)) < 0.96.
Proof.
  replace ((115 * 2 - 150) / 150) with (8 / 15) by field.
  replace ((83 * 2 - 150) / 150) with (8 / 75) by field.
  replace (2 * -48 / 150) with (-16 / 25) by field.
  replace (2 * 32 / 150) with (32 / 75) by field.
  unfold rotate. destruct (Req_dec_T (-16 / 25) 0) as [E|_]; [lra|].
  rewrite (project_at (8 / 15) (8 / 75)) by lra. simpl.
  rewrite (project_at (8 / 15 + -16 / 25) (8 / 75 + 32 / 75)) by lra. simpl.
  rewrite pdiv_Some by (unfold TRACKBALLSIZE; lra). simpl.
  set (dv := v_sub _ _).
  assert (HL : v_dot dv dv = 3328 / 5625) by (subst dv; unfold v_dot, v_sub; simpl; lra).
  unfold v_length; rewrite HL. rewrite dec_size.
  set (sL := sqrt (3328 / 5625)).
  assert (HsL : sL * sL = 3328 / 5625) by (apply sqrt_sqrt; lra).
  assert (HsL0 : 0 <= sL) by apply sqrt_pos.
  assert (Ht : sL / (2 * (4 / 5)) < 1) by (apply Rmult_lt_reg_r with (2 * (4 / 5)); [lra|];
    unfold Rdiv; rewrite Rmult_assoc, Rinv_l by lra; nra).
  assert (Ht0 : 0 <= sL / (2 * (4 / 5))) by (unfold Rdiv; apply Rmult_le_pos; [lra | apply Rlt_le, Rinv_0_lt_compat; lra]).
  destruct (Rgt_dec (sL / (2 * (4 / 5))) 1); [lra|].
  destruct (Rlt_dec (sL / (2 * (4 / 5))) (-1)); [lra|].
  rewrite pasin_Some by lra. simpl.
  eexists; split; [reflexivity|].
  rewrite q_add_id_r. unfold q_from_axis_angle.
  replace (2 * asin (sL / (2 * (4 / 5))) / 2) with (asin (sL / (2 * (4 / 5)))) by field.
  rewrite sin_asin, cos_asin by lra.
  set (a := v_cross _ _).
  assert (HA : v_dot a a = 9211904 / 31640625) by (subst a; unfold v_dot, v_cross; simpl; lra).
  assert (Ha2 : v2 a = -1664 / 5625) by (subst a; unfold v_cross; simpl; lra).
  clearbody a. unfold v_normalize, v_length; rewrite HA.
  set (sA := sqrt (9211904 / 31640625)).
  assert (HsA : sA * sA = 9211904 / 31640625) by (apply sqrt_sqrt; lra).
  assert (HsA0 : 0 < sA) by (apply sqrt_lt_R0; lra).
  rewrite pdiv_Some by lra.
  unfold q_dot, set_z, q_append, v_mul; simpl.
  rewrite sqrt_sqrt by (unfold Rsqr; nra).
  unfold Rsqr.
  match goal with |- ?lhs < _ =>
    assert (E : lhs = 1 - sL * sL / (8 / 5 * (8 / 5)) +
                      sL * sL / (8 / 5 * (8 / 5)) * (v0 a * v0 a + v1 a * v1 a) / (sA * sA))
      by (field; lra) end.
  rewrite E, HsL, HsA.
  assert (H01 : v0 a * v0 a + v1 a * v1 a = 9211904 / 31640625 - (-1664 / 5625) * (-1664 / 5625))
    by (unfold v_dot in HA; rewrite Ha2 in HA; lra).
  rewrite H01. lra.
Qed.

Lemma q_normalize_identity : q_normalize q_identity = q_identity.
Proof.
  unfold q_normalize, q_length, q_dot, q_identity; simpl.
  replace (0 * 0 + 0 * 0 + 0 * 0 + 1 * 1) with 1 by ring.
  rewrite sqrt_1, pdiv_Some by lra. unfold q_mul; simpl; f_equal; field.
Qed.

Lemma zero_drag_identity st :
  rotation st = q_identity ->
  exists st', drag_to 2 2 1 1 0 0 st = Some st' /\ rotation st' = q_identity /\
    count st' = (if Nat.ltb RENORMCOUNT (S (count st)) then 0%nat else S (count st)).
Proof.
  intros Hr.
  assert (Hq : rotate ((1 * 2 - 2) / 2) ((1 * 2 - 2) / 2) (2 * 0 / 2) (2 * 0 / 2)
               = Some q_identity).
  { replace (2 * 0 / 2) with 0 by field. apply rotate_zero. }
  rewrite (drag_to_exists 2 2 1 1 0 0 st q_identity ltac:(lra) ltac:(lra) Hq).
  eexists; split; [reflexivity|]. simpl. rewrite Hr, q_add_id_l.
  replace (set_z q_identity) with q_identity by reflexivity.
  destruct (Nat.ltb _ _); simpl; [rewrite q_normalize_identity|]; auto.
Qed.

Lemma run_zero_drags n st :
  rotation st = q_identity -> (count st + n <= 98)%nat ->
  exists st', run (repeat (Drag 2 2 1 1 0 0) n) st = Some st' /\
    rotation st' = q_identity /\
    (count st' = count st + n \/ (count st' = 0 /\ count st + n = 98))%nat.
Proof.
  revert st; induction n as [|n IH]; intros st Hr Hc; simpl.
  - exists st; split; [reflexivity|]; split; [exact Hr | left; lia].
  - destruct (zero_drag_identity st Hr) as [st1 [Hd [Hr1 Hc1]]].
    rewrite Hd; simpl. unfold RENORMCOUNT in Hc1.
    destruct (Nat.ltb_spec 97 (S (count st))).
    + assert (n = 0%nat) by lia; subst n. simpl.
      exists st1; split; [reflexivity|]; split; [exact Hr1 | right; lia].
    + destruct (IH st1 Hr1 ltac:(lia)) as [st2 [H2 [Hr2 Hc2]]].
      exists st2; split; [exact H2|]; split; [exact Hr2 | lia].
Qed.

Lemma run_app os1 os2 st : run (os1 ++ os2) st = obind (run os1 st) (run os2).
Proof.
  revert st; induction os1 as [|o os IH]; intros st; simpl; [reflexivity|].
  destruct (step o st); simpl; [apply IH | reflexivity].
Qed.

(** * Claims *)

(** C8: the quaternion composition [_q_add] has [(0, 0, 0, 1)] as a left
    and a right identity. *)
Theorem q_add_identity_both_sides :
  forall q, q_add q_identity q = q /\ q_add q q_identity = q.
Proof.
  intros [a b c d]; unfold q_add, q_identity, q_append, qv, v_add, v_mul, v_cross, v_dot;
    simpl; split; f_equal; ring.
Qed.

(** C9: [_q_normalize] returns a quaternion of length 1 when its argument
    has nonzero length and returns the argument unchanged when its length is
    zero; likewise [_v_normalize] for 3-vectors. *)
Theorem normalize_unit_or_identity :
  (forall q, (q_length q <> 0 /\ q_length (q_normalize q) = 1) \/
             (q_length q = 0 /\ q_normalize q = q)) /\
  (forall v, (v_length v <> 0 /\ v_length (v_normalize v) = 1) \/
             (v_length v = 0 /\ v_normalize v = v)).
Proof. split; [exact q_normalize_cases | exact v_normalize_cases]. Qed.

(** C10: the constructor stores its zoom and distance arguments unclamped,
    and they stay as given along any run of operations that calls neither
    the zoom setter, [zoom_to], nor the distance setter. *)
Theorem init_stores_zoom_distance_verbatim :
  forall t p z d os st',
    forallb (fun o => negb (touches_zoom o || touches_distance o)) os = true ->
    run os (init t p z d) = Some st' ->
    zoom st' = z /\ distance st' = d.
Proof.
  intros t p z d os st' Hos Hrun.
  destruct (init_fields t p z d) as [Hz Hd].
  destruct (run_keeps_fields os _ st' Hos Hrun) as [Hz' Hd'].
  split; congruence.
Qed.

(** C7: with a nonzero viewport height [h], [zoom_to] sets the zoom to the
    old zoom minus [5 * dy / h], clamped to [0.25, 10]; hence any run of
    [zoom_to] gestures from an in-range zoom stays in [0.25, 10]. *)
Theorem zoom_to_delta_and_clamp :
  (forall h x y dx dy st, h <> 0 ->
     exists st', zoom_to h x y dx dy st = Some st' /\
                 zoom st' = Rmin 10 (Rmax 0.25 (zoom st + - (5 * dy / h)))) /\
  (forall os st st', forallb is_zoom_to os = true -> 0.25 <= zoom st <= 10 ->
     run os st = Some st' -> 0.25 <= zoom st' <= 10).
Proof.
  split.
  - intros h x y dx dy st Hh. unfold zoom_to. rewrite pdiv_Some by exact Hh.
    simpl. eexists; split; [reflexivity|]. rewrite set_zoom_clamp. reflexivity.
  - intros os; induction os as [|o os IH]; simpl; intros st st' Hos Hz Hrun.
    + inversion Hrun; subst; exact Hz.
    + apply andb_prop in Hos; destruct Hos as [Ho Hos].
      inv_bind Hrun. apply (IH a); [exact Hos | | exact Hrun].
      destruct o; try discriminate. simpl in Hm; unfold zoom_to in Hm; inv_bind Hm.
      inversion Hm; subst; apply set_zoom_range.
Qed.

(** C3 (as amended): the constructor does not clamp, so [Trackball(zoom=100)]
    has zoom 100; but from a constructor call with zoom in [0.25, 10] and
    distance at least 1 (as the defaults 1 and 3 are), every state reached by
    any sequence of operations keeps zoom in [0.25, 10] and distance >= 1. *)
Theorem reachable_zoom_distance_in_range :
  forall t p z d os st', 0.25 <= z <= 10 -> 1 <= d ->
    run os (init t p z d) = Some st' -> in_range st'.
Proof.
  intros t p z d os st' Hz Hd Hrun.
  apply (run_in_range os (init t p z d)); [split; simpl; assumption | exact Hrun].
Qed.

(** C3: the constructor's arguments are not clamped. *)
Lemma init_zoom_out_of_range : ~ in_range (init 0 0 100 3).
Proof. unfold in_range; simpl; lra. Qed.

(** C4: a successful [drag_to] computes the incremental quaternion [q] with
    [_rotate] from the normalised pointer motion, stores [_q_add(q, current)]
    with its third (z) entry set to 0 (normalised when the counter passes
    97), and so leaves a rotation whose z entry is 0. *)
Theorem drag_composes_and_zeroes_z :
  forall w h x y dx dy st st',
    drag_to w h x y dx dy st = Some st' ->
    exists q,
      rotate ((x * 2 - w) / w) ((y * 2 - h) / h) (2 * dx / w) (2 * dy / h) = Some q /\
      rotation st' = (if Nat.ltb RENORMCOUNT (S (count st))
                      then q_normalize (set_z (q_add q (rotation st)))
                      else set_z (q_add q (rotation st))) /\
      q2 (rotation st') = 0.
Proof.
  intros w h x y dx dy st st' H.
  destruct (drag_to_Some _ _ _ _ _ _ _ _ H) as [_ [_ [q [Hq [Hr _]]]]].
  exists q; split; [exact Hq|]; split; [exact Hr|].
  rewrite Hr; destruct (Nat.ltb _ _); [apply q_normalize_z0|]; reflexivity.
Qed.

(** C1 (as amended): a zero-delta [drag_to] in a viewport of nonzero size
    composes with the identity, so the rotation becomes the previous one with
    its z entry set to 0 (then normalised if the counter passes 97); it is
    unchanged when the z entry is already 0 and the counter stays below
    98, and changed whenever the z entry is nonzero. *)
Theorem drag_zero_delta_effect :
  forall w h x y st, w <> 0 -> h <> 0 ->
    exists st', drag_to w h x y 0 0 st = Some st' /\
      rotation st' = (if Nat.ltb RENORMCOUNT (S (count st))
                      then q_normalize (set_z (rotation st))
                      else set_z (rotation st)) /\
      (q2 (rotation st) = 0 -> (count st < 97)%nat -> rotation st' = rotation st) /\
      (q2 (rotation st) <> 0 -> rotation st' <> rotation st).
Proof.
  intros w h x y st Hw Hh.
  assert (Hq : rotate ((x * 2 - w) / w) ((y * 2 - h) / h) (2 * 0 / w) (2 * 0 / h)
               = Some q_identity).
  { replace (2 * 0 / w) with 0 by (field; exact Hw).
    replace (2 * 0 / h) with 0 by (field; exact Hh). apply rotate_zero. }
  rewrite (drag_to_exists w h x y 0 0 st q_identity Hw Hh Hq).
  eexists; split; [reflexivity|]. simpl. rewrite q_add_id_l. split.
  - destruct (Nat.ltb _ _); reflexivity.
  - split.
    + intros Hz Hc. unfold RENORMCOUNT.
      destruct (Nat.ltb_spec 97 (S (count st))); [lia|]. simpl.
      destruct (rotation st); simpl in *; subst; reflexivity.
    + intros Hz Heq. apply Hz. rewrite <- Heq.
      destruct (Nat.ltb _ _); simpl; [apply q_normalize_z0|];
        destruct (rotation st); reflexivity.
Qed.

(** C1: a zero-delta drag does change the rotation of [Trackball(0, 90)],
    whose rotation has a nonzero z entry. *)
Lemma drag_zero_delta_changes_rotation :
  exists st', drag_to 2 2 1 1 0 0 (init 0 90 1 3) = Some st' /\
              rotation st' <> rotation (init 0 90 1 3).
Proof.
  assert (Hq : rotate ((1 * 2 - 2) / 2) ((1 * 2 - 2) / 2) (2 * 0 / 2) (2 * 0 / 2)
               = Some q_identity).
  { replace (2 * 0 / 2) with 0 by field. apply rotate_zero. }
  rewrite (drag_to_exists 2 2 1 1 0 0 _ q_identity ltac:(lra) ltac:(lra) Hq).
  eexists; split; [reflexivity|]. simpl. rewrite q_add_id_l.
  intros Heq. apply (f_equal q2) in Heq. simpl in Heq.
  unfold q_add, q_append, qv, v_add, v_mul, v_cross, v_dot in Heq; simpl in Heq.
  replace (0.5 * (0 * (PI / 180))) with 0 in Heq by ring.
  replace (0.5 * (90 * (PI / 180))) with (PI / 4) in Heq by (rewrite dec_half; field).
  rewrite sin_0, cos_0, sin_PI4 in Heq.
  assert (H2 : 0 < 1 / sqrt 2) by (apply Rdiv_lt_0_compat; [lra | apply sqrt_lt_R0; lra]).
  lra.
Qed.

(** C6 (as amended): each [drag_to] increments the drag counter; when the
    counter passes 97 the rotation is normalised (length 1, or left as it is
    when its length is 0) and the counter reset to 0; in every reachable
    state the counter is at most 97. *)
Theorem drag_counter_renormalization :
  (forall w h x y dx dy st st', drag_to w h x y dx dy st = Some st' ->
     ((count st < 97)%nat -> count st' = S (count st)) /\
     ((97 <= count st)%nat -> count st' = 0%nat /\
        (q_length (rotation st') = 1 \/ q_length (rotation st') = 0))) /\
  (forall t p z d os st', run os (init t p z d) = Some st' -> (count st' <= 97)%nat).
Proof.
  split.
  - intros w h x y dx dy st st' H.
    destruct (drag_to_Some _ _ _ _ _ _ _ _ H) as [_ [_ [q [_ [Hr Hc]]]]].
    unfold RENORMCOUNT in *.
    destruct (Nat.ltb_spec 97 (S (count st))); split; intros; try lia.
    split; [exact Hc|]. rewrite Hr.
    destruct (q_normalize_cases (set_z (q_add q (rotation st)))) as [[_ E]|[E E']];
      [left; exact E | right; rewrite E'; exact E].
  - intros t p z d os st' H. apply (run_count os (init t p z d)); [simpl; lia | exact H].
Qed.

(** C2 (as amended): zero-length vectors and quaternions are returned
    unchanged by normalisation, zoom and distance are clamped, the projection
    and [_rotate] never raise, and the constructor, [pan_to] and the setters
    are total; the exceptions left are [ZeroDivisionError]s: [zoom_to] raises
    exactly when the viewport height is 0, [drag_to] exactly when the
    viewport width or height is 0, and the [theta]/[phi] getters exactly when
    [1 - 2(q1^2 + q2^2)] or [1 - 2(q2^2 + q3^2)] is 0. *)
Theorem exceptions_are_zero_divisions :
  (forall h x y dx dy st, zoom_to h x y dx dy st = None <-> h = 0) /\
  (forall w h x y dx dy st, drag_to w h x y dx dy st = None <-> w = 0 \/ h = 0) /\
  (forall st, get_orientation st = None <->
     1 - 2 * (q1 (rotation st) * q1 (rotation st) + q2 (rotation st) * q2 (rotation st)) = 0 \/
     1 - 2 * (q2 (rotation st) * q2 (rotation st) + q3 (rotation st) * q3 (rotation st)) = 0) /\
  (forall x y, exists z, project TRACKBALLSIZE x y = Some z) /\
  (forall x y dx dy, exists q, rotate x y dx dy = Some q).
Proof.
  split; [exact zoom_to_None|]. split; [exact drag_to_None|].
  split; [exact get_orientation_None|]. split; [exact project_total | exact rotate_total].
Qed.

(** C2: a zoom gesture in a viewport of height 0 raises, and so does the
    [theta] getter of [Trackball(theta=90)], whose [1 - 2(q2^2 + q3^2)] is 0. *)
Lemma zoom_and_theta_getter_raise :
  zoom_to 0 0 0 0 0 (init 0 0 1 3) = None /\ get_theta (init 90 0 1 3) = None.
Proof.
  split; [apply zoom_to_None; reflexivity|].
  assert (H : get_orientation (init 90 0 1 3) = None).
  { apply get_orientation_None. right. rewrite init90_rotation; simpl.
    destruct sqrt2_facts as [H2 H1].
    replace (1 / sqrt 2 * (1 / sqrt 2)) with (/ (sqrt 2 * sqrt 2)) by (field; lra).
    rewrite H2; lra. }
  unfold get_theta, get_angles; rewrite H; reflexivity.
Qed.

(** C5: with the trackball radius [R = 0.8], [_project] returns
    [sqrt (R^2 - d^2)] when [d < R / sqrt 2] and [(R / sqrt 2)^2 / d]
    otherwise, [d] the planar distance of [(x, y)] from the centre; at the
    centre it returns exactly [0.8]. *)
Theorem project_branches :
  (forall x y,
     let d := sqrt (x * x + y * y) in
     (d < TRACKBALLSIZE / sqrt 2 ->
        project TRACKBALLSIZE x y = Some (sqrt (TRACKBALLSIZE * TRACKBALLSIZE - d * d))) /\
     (TRACKBALLSIZE / sqrt 2 <= d ->
        project TRACKBALLSIZE x y =
          Some (TRACKBALLSIZE / sqrt 2 * (TRACKBALLSIZE / sqrt 2) / d))) /\
  project TRACKBALLSIZE 0 0 = Some 0.8.
Proof.
  split; [exact project_cases|].
  destruct (project_cases 0 0) as [H _]. rewrite H.
  - f_equal. replace (0 * 0 + 0 * 0) with 0 by ring. rewrite sqrt_0.
    replace (TRACKBALLSIZE * TRACKBALLSIZE - 0 * 0) with (TRACKBALLSIZE * TRACKBALLSIZE) by ring.
    rewrite sqrt_square; unfold TRACKBALLSIZE; lra.
  - replace (0 * 0 + 0 * 0) with 0 by ring. rewrite sqrt_0.
    apply Rdiv_lt_0_compat; [unfold TRACKBALLSIZE; lra | apply sqrt2_bounds].
Qed.

(** C6: after 99 drags from [Trackball()] (98 zero-delta drags, the 98th
    of which renormalises, then one drag turning about the viewing axis in a
    150x150 viewport) the rotation quaternion is shorter than 0.98: zeroing
    its z entry shortened it and no renormalisation followed. *)
Lemma unit_length_lost_after_99_drags :
  exists st', run (repeat (Drag 2 2 1 1 0 0) 98 ++ [Drag 150 150 115 83 (-48) 32])
                  (init 0 0 1 3) = Some st' /\
              q_length (rotation st') < 0.98.
Proof.
  rewrite run_app.
  destruct (run_zero_drags 98 (init 0 0 1 3) (init00_rotation 1 3) ltac:(simpl; lia))
    as [st98 [H98 [Hr98 Hc98]]].
  assert (Hc : count st98 = 0%nat).
  { assert (H0 : (count (init 0 0 1 3) <= 97)%nat) by (simpl; lia).
    pose proof (run_count _ _ _ H0 H98). simpl in Hc98; lia. }
  rewrite H98; simpl.
  destruct rotate_roll as [q [Hq Hlen]].
  rewrite (drag_to_exists 150 150 115 83 (-48) 32 st98 q ltac:(lra) ltac:(lra) Hq).
  simpl. eexists; split; [reflexivity|]. simpl.
  rewrite Hc; simpl. rewrite Hr98.
  unfold q_length. apply sqrt_lt_of_sq; [apply q_dot_nonneg | lra | lra].
Qed.

(** * Witnesses *)

Lemma init_stores_zoom_distance_verbatim_witness :
  run [PanTo 0 0 1 1; SetTheta 30] (init 0 0 100 0) =
    Some (set_theta (pan_to 0 0 1 1 (init 0 0 100 0)) 30) /\
  zoom (set_theta (pan_to 0 0 1 1 (init 0 0 100 0)) 30) = 100 /\
  distance (set_theta (pan_to 0 0 1 1 (init 0 0 100 0)) 30) = 0 /\
  ~ in_range (set_theta (pan_to 0 0 1 1 (init 0 0 100 0)) 30).
Proof.
  assert (Hrun : run [PanTo 0 0 1 1; SetTheta 30] (init 0 0 100 0) =
                 Some (set_theta (pan_to 0 0 1 1 (init 0 0 100 0)) 30)) by reflexivity.
  destruct (init_stores_zoom_distance_verbatim 0 0 100 0 [PanTo 0 0 1 1; SetTheta 30] _ eq_refl Hrun) as [Hz Hd].
  split; [exact Hrun|]. split; [exact Hz|]. split; [exact Hd|].
  unfold in_range; rewrite Hz, Hd; lra.
Defined.

Lemma zoom_to_delta_and_clamp_witness :
  exists st', zoom_to 800 0 0 0 80 (init 0 0 1 3) = Some st' /\
              zoom st' = 0.5 /\ 0.25 <= zoom st' <= 10.
Proof.
  destruct (proj1 zoom_to_delta_and_clamp 800 0 0 0 80 (init 0 0 1 3) ltac:(lra))
    as [st' [H1 H2]].
  exists st'; split; [exact H1|]. split.
  - rewrite H2; simpl. unfold Rmin, Rmax; repeat destruct Rle_dec; lra.
  - apply (proj2 zoom_to_delta_and_clamp [ZoomTo 800 0 0 0 80] (init 0 0 1 3) st'
             eq_refl ltac:(simpl; lra)).
    simpl; rewrite H1; reflexivity.
Defined.

Lemma reachable_zoom_distance_in_range_witness :
  run [SetDistance 0; SetZoom 50] (init 0 0 1 3) =
    Some (set_zoom (set_distance (init 0 0 1 3) 0) 50) /\
  in_range (set_zoom (set_distance (init 0 0 1 3) 0) 50).
Proof.
  assert (Hrun : run [SetDistance 0; SetZoom 50] (init 0 0 1 3) =
                 Some (set_zoom (set_distance (init 0 0 1 3) 0) 50)) by reflexivity.
  split; [exact Hrun|].
  apply (reachable_zoom_distance_in_range 0 0 1 3 _ _ ltac:(lra) ltac:(lra) Hrun).
Defined.

Lemma zero_drag_init :
  drag_to 2 2 1 1 0 0 (init 0 0 1 3) =
    Some (let st := init 0 0 1 3 in
          let r := set_z (q_add q_identity (rotation st)) in
          let rc := if Nat.ltb RENORMCOUNT (S (count st)) then (q_normalize r, 0%nat)
                    else (r, S (count st)) in
          Trackball (fst rc) (zoom st) (distance st) (snd rc) (q_rotmatrix (fst rc))
                    (theta st) (phi st) (pan_x st) (pan_y st)).
Proof.
  apply drag_to_exists; try lra.
  replace (2 * 0 / 2) with 0 by field. apply rotate_zero.
Qed.

Lemma drag_composes_and_zeroes_z_witness :
  exists st', drag_to 2 2 1 1 0 0 (init 0 0 1 3) = Some st' /\ q2 (rotation st') = 0.
Proof.
  eexists; split; [exact zero_drag_init|].
  destruct (drag_composes_and_zeroes_z 2 2 1 1 0 0 _ _ zero_drag_init) as [q [_ [_ Hz]]].
  exact Hz.
Defined.

Lemma drag_zero_delta_effect_witness :
  exists st', drag_to 2 2 1 1 0 0 (init 0 0 1 3) = Some st' /\
              rotation st' = rotation (init 0 0 1 3).
Proof.
  destruct (drag_zero_delta_effect 2 2 1 1 (init 0 0 1 3) ltac:(lra) ltac:(lra))
    as [st' [H1 [_ [H3 _]]]].
  exists st'; split; [exact H1|]. apply H3; [rewrite init00_rotation; reflexivity | simpl; lia].
Defined.

Lemma drag_counter_renormalization_witness :
  exists st', drag_to 2 2 1 1 0 0 (init 0 0 1 3) = Some st' /\ count st' = 1%nat /\
              (count (init 0 0 1 3) <= 97)%nat.
Proof.
  eexists; split; [exact zero_drag_init|]. split.
  - apply (proj1 drag_counter_renormalization 2 2 1 1 0 0 _ _ zero_drag_init).
    simpl; lia.
  - apply (proj2 drag_counter_renormalization 0 0 1 3 [] _ eq_refl).
Defined.

Lemma exceptions_are_zero_divisions_witness :
  zoom_to 0 0 0 0 0 (init 0 0 1 3) = None /\ drag_to 2 2 1 1 0 0 (init 0 0 1 3) <> None /\
  get_orientation (init 0 0 1 3) <> None.
Proof.
  destruct exceptions_are_zero_divisions as [Hz [Hd [Ho _]]].
  split; [apply Hz; reflexivity|]. split.
  - intros H; apply Hd in H; lra.
  - intros H; apply Ho in H. rewrite init00_rotation in H; simpl in H; lra.
Defined.

Lemma project_branches_witness :
  project TRACKBALLSIZE 1 0 = Some 0.32 /\ project TRACKBALLSIZE 0 0 = Some 0.8.
Proof.
  destruct project_branches as [H H0]. split; [|exact H0].
  destruct sqrt2_facts as [H2 H1].
  rewrite (proj2 (H 1 0)).
  - f_equal. replace (1 * 1 + 0 * 0) with 1 by ring. rewrite sqrt_1.
    replace (TRACKBALLSIZE / sqrt 2 * (TRACKBALLSIZE / sqrt 2) / 1)
      with (TRACKBALLSIZE * TRACKBALLSIZE / (sqrt 2 * sqrt 2)) by (field; lra).
    rewrite H2. unfold TRACKBALLSIZE. lra.
  - replace (1 * 1 + 0 * 0) with 1 by ring. rewrite sqrt_1.
    apply Rlt_le. apply Rmult_lt_reg_r with (sqrt 2); [lra|].
    replace (TRACKBALLSIZE / sqrt 2 * sqrt 2) with TRACKBALLSIZE by (field; lra).
    unfold TRACKBALLSIZE; lra.
Defined.

(** * Further properties of the code *)

Lemma sqrt_eq_1_inv x : 0 <= x -> sqrt x = 1 -> x = 1.
Proof. intros Hx H. rewrite <- (sqrt_sqrt x Hx), H; ring. Qed.

Lemma sqrt_eq_0_inv x : 0 <= x -> sqrt x = 0 -> x = 0.
Proof. intros Hx H. rewrite <- (sqrt_sqrt x Hx), H; ring. Qed.

(** [_q_add] is associative: composing three rotations does not depend on
    the grouping. *)
Theorem q_add_assoc : forall a b c, q_add a (q_add b c) = q_add (q_add a b) c.
Proof.
  intros [a0 a1 a2 a3] [b0 b1 b2 b3] [c0 c1 c2 c3].
  unfold q_add, q_append, qv, v_add, v_mul, v_cross, v_dot; simpl; f_equal; ring.
Qed.

(** The squared length of [_q_add(a, b)] is the product of the squared
    lengths: composing unit quaternions gives a unit quaternion. *)
Theorem q_add_length : forall a b, q_length (q_add a b) = q_length a * q_length b.
Proof.
  intros [a0 a1 a2 a3] [b0 b1 b2 b3]. unfold q_length.
  rewrite <- sqrt_mult by apply q_dot_nonneg. f_equal.
  unfold q_dot, q_add, q_append, qv, v_add, v_mul, v_cross, v_dot; simpl; ring.
Qed.

(** [_v_cross(a, b)] is perpendicular to both [a] and [b]: the drag's
    rotation axis is perpendicular to both projected points. *)
Theorem v_cross_perpendicular :
  forall a b, v_dot (v_cross a b) a = 0 /\ v_dot (v_cross a b) b = 0.
Proof. intros [a0 a1 a2] [b0 b1 b2]; unfold v_dot, v_cross; simpl; split; ring. Qed.

Lemma q_dot_from_axis_angle v phi :
  q_dot (q_from_axis_angle v phi) (q_from_axis_angle v phi) =
  v_dot (v_normalize v) (v_normalize v) * (sin (phi / 2) * sin (phi / 2)) +
  cos (phi / 2) * cos (phi / 2).
Proof.
  unfold q_from_axis_angle, q_append, q_dot, v_mul, v_dot; simpl; ring.
Qed.

Lemma v_dot_normalize v :
  (v_length v <> 0 /\ v_dot (v_normalize v) (v_normalize v) = 1) \/
  (v_length v = 0 /\ v_dot (v_normalize v) (v_normalize v) = 0).
Proof.
  destruct (v_normalize_cases v) as [[H0 H1]|[H0 H1]].
  - left; split; [exact H0|]. apply sqrt_eq_1_inv; [apply v_dot_nonneg | exact H1].
  - right; split; [exact H0|]. rewrite H1. apply sqrt_eq_0_inv; [apply v_dot_nonneg | exact H0].
Qed.

(** [_q_from_axis_angle(v, phi)] has length 1 when the axis [v] has nonzero
    length, and length [|cos(phi/2)|] at most 1 when [v] is the zero
    vector. *)
Theorem from_axis_angle_length :
  forall v phi,
    (v_length v <> 0 /\ q_length (q_from_axis_angle v phi) = 1) \/
    (v_length v = 0 /\ q_length (q_from_axis_angle v phi) = Rabs (cos (phi / 2)) /\
     Rabs (cos (phi / 2)) <= 1).
Proof.
  intros v phi. unfold q_length. rewrite q_dot_from_axis_angle.
  pose proof (sin2_cos2 (phi / 2)) as Hsc; unfold Rsqr in Hsc.
  destruct (v_dot_normalize v) as [[H0 H1]|[H0 H1]]; rewrite H1.
  - left; split; [exact H0|].
    replace (1 * (sin (phi / 2) * sin (phi / 2)) + cos (phi / 2) * cos (phi / 2)) with 1
      by lra. apply sqrt_1.
  - right; split; [exact H0|]. split.
    + replace (0 * (sin (phi / 2) * sin (phi / 2)) + cos (phi / 2) * cos (phi / 2))
        with (Rsqr (cos (phi / 2))) by (unfold Rsqr; ring).
      apply sqrt_Rsqr_abs.
    + apply Rabs_le; pose proof (COS_bound (phi / 2)); lra.
Qed.

Lemma rotmatrix_h_eq q : q_dot q q = 1 -> q_rotmatrix q = q_rotmatrix_h q.
Proof. intros H; unfold q_rotmatrix_h; rewrite H; reflexivity. Qed.

(** For a unit quaternion [q], the rotation block of [_q_rotmatrix(q)] is
    orthogonal: its rows are unit vectors and pairwise perpendicular. *)
Theorem rotmatrix_orthogonal :
  forall q i j, q_length q = 1 -> (i < 3)%nat -> (j < 3)%nat ->
    row_dot (q_rotmatrix q) i j = if Nat.eqb i j then 1 else 0.
Proof.
  intros [x y z w] i j Hq Hi Hj.
  assert (Hn : q_dot (Q4 x y z w) (Q4 x y z w) = 1)
    by (apply sqrt_eq_1_inv; [apply q_dot_nonneg | exact Hq]).
  rewrite (rotmatrix_h_eq _ Hn). unfold q_dot in Hn; simpl in Hn.
  destruct i as [|[|[|i]]]; try lia; destruct j as [|[|[|j]]]; try lia;
    unfold row_dot, mat_entry, q_rotmatrix_h, q_dot; simpl;
    first [ ring
          | transitivity ((x * x + y * y + z * z + w * w) * (x * x + y * y + z * z + w * w));
            [ring | rewrite Hn; ring] ].
Qed.

(** [Trackball(theta=0, phi=0)] starts with the identity rotation matrix. *)
Theorem init00_matrix_identity : forall z d, matrix (init 0 0 z d) = identity16.
Proof.
  intros z d. change (matrix (init 0 0 z d)) with (q_rotmatrix (rotation (init 0 0 z d))).
  rewrite init00_rotation. unfold q_rotmatrix, q_identity, identity16; simpl.
  repeat f_equal; ring.
Qed.

Lemma set_orientation_rotation st t p :
  let A := 0.5 * (t * (PI / 180)) in
  let B := 0.5 * (p * (PI / 180)) in
  rotation (set_orientation st t p) =
    Q4 (sin A * cos B) (sin A * sin B) (sin B * cos A) (cos A * cos B).
Proof.
  intros A B. unfold set_orientation; simpl. fold A B.
  unfold q_add, q_append, qv, v_add, v_mul, v_cross, v_dot; simpl; f_equal; ring.
Qed.

Lemma set_orientation_unit st t p :
  q_dot (rotation (set_orientation st t p)) (rotation (set_orientation st t p)) = 1.
Proof.
  rewrite set_orientation_rotation. unfold q_dot; simpl.
  set (A := 0.5 * (t * (PI / 180))); set (B := 0.5 * (p * (PI / 180))).
  pose proof (sin2_cos2 A) as HA; pose proof (sin2_cos2 B) as HB; unfold Rsqr in HA, HB.
  transitivity ((sin A * sin A + cos A * cos A) * (sin B * sin B + cos B * cos B)); [ring|].
  rewrite HA, HB; ring.
Qed.

Lemma from_axis_angle_dot_le v phi :
  q_dot (q_from_axis_angle v phi) (q_from_axis_angle v phi) <= 1.
Proof.
  rewrite q_dot_from_axis_angle.
  pose proof (sin2_cos2 (phi / 2)) as Hsc; unfold Rsqr in Hsc.
  destruct (v_dot_normalize v) as [[_ E]|[_ E]]; rewrite E; nra.
Qed.

Lemma rotate_dot_le_1 x y dx dy q : rotate x y dx dy = Some q -> q_dot q q <= 1.
Proof.
  unfold rotate; intros H.
  destruct (Req_dec_T dx 0); destruct (Req_dec_T dy 0);
    try (inversion H; subst; unfold q_dot; simpl; lra);
    inv_bind H; inversion H; subst; apply from_axis_angle_dot_le.
Qed.

Lemma q_dot_set_z q : q_dot (set_z q) (set_z q) <= q_dot q q.
Proof. destruct q; unfold q_dot, set_z; simpl; nra. Qed.

Lemma q_dot_add a b : q_dot (q_add a b) (q_add a b) = q_dot a a * q_dot b b.
Proof.
  destruct a, b; unfold q_dot, q_add, q_append, qv, v_add, v_mul, v_cross, v_dot; simpl; ring.
Qed.

Lemma q_dot_normalize_le q : q_dot q q <= 1 -> q_dot (q_normalize q) (q_normalize q) <= 1.
Proof.
  intros H. destruct (q_normalize_cases q) as [[_ E]|[_ E]].
  - unfold q_length in E. apply sqrt_eq_1_inv in E; [lra | apply q_dot_nonneg].
  - rewrite E; exact H.
Qed.

(** The state invariant: the cached matrix is the matrix of the rotation,
    and the rotation has length at most 1. *)
Lemma step_consistent o st st' :
  matrix st = q_rotmatrix (rotation st) -> q_dot (rotation st) (rotation st) <= 1 ->
  step o st = Some st' ->
  matrix st' = q_rotmatrix (rotation st') /\ q_dot (rotation st') (rotation st') <= 1.
Proof.
  intros Hm Hd H; destruct o; simpl in H.
  - unfold drag_to in H; inv_bind H.
    assert (Hq := rotate_dot_le_1 _ _ _ _ _ Hm4).
    assert (Hu : q_dot (set_z (q_add a3 (rotation st))) (set_z (q_add a3 (rotation st))) <= 1).
    { eapply Rle_trans; [apply q_dot_set_z|]. rewrite q_dot_add.
      pose proof (q_dot_nonneg a3); pose proof (q_dot_nonneg (rotation st)); nra. }
    destruct (Nat.ltb RENORMCOUNT (S (count st))); inversion H; subst; simpl;
      (split; [reflexivity|]); [apply q_dot_normalize_le|]; exact Hu.
  - unfold zoom_to in H; inv_bind H; inversion H; subst; simpl; auto.
  - inversion H; subst; simpl; auto.
  - inversion H; subst; simpl; auto.
  - inversion H; subst; simpl; auto.
  - inversion H; subst; unfold set_theta, set_phi.
    split; [reflexivity | rewrite set_orientation_unit; lra].
  - inversion H; subst; unfold set_theta, set_phi.
    split; [reflexivity | rewrite set_orientation_unit; lra].
  - inv_bind H; unfold get_theta, get_angles in Hm0; inv_bind Hm0; inv_bind Hm1.
    inversion Hm1; inversion Hm0; inversion H; subst; simpl; auto.
  - inv_bind H; unfold get_phi, get_angles in Hm0; inv_bind Hm0; inv_bind Hm1.
    inversion Hm1; inversion Hm0; inversion H; subst; simpl; auto.
Qed.

Lemma run_consistent os st st' :
  matrix st = q_rotmatrix (rotation st) -> q_dot (rotation st) (rotation st) <= 1 ->
  run os st = Some st' ->
  matrix st' = q_rotmatrix (rotation st') /\ q_dot (rotation st') (rotation st') <= 1.
Proof.
  revert st; induction os as [|o os IH]; intros st Hm Hd H; simpl in H.
  - inversion H; subst; auto.
  - inv_bind H. destruct (step_consistent o st a Hm Hd Hm0). eapply IH; eauto.
Qed.

(** In every state reached from the constructor by any sequence of
    operations, the cached matrix is [_q_rotmatrix] of the current rotation,
    and the rotation quaternion has length at most 1. *)
Theorem reachable_matrix_and_length :
  forall t p z d os st', run os (init t p z d) = Some st' ->
    matrix st' = q_rotmatrix (rotation st') /\ q_length (rotation st') <= 1.
Proof.
  intros t p z d os st' H.
  apply run_consistent in H; [| reflexivity |].
  - split; [apply H|]. unfold q_length. rewrite <- sqrt_1. apply sqrt_le_1_alt; apply H.
  - change (rotation (init t p z d)) with
      (rotation (set_orientation (Trackball q_identity z d 0%nat [] t p 0 0) t p)).
    rewrite set_orientation_unit; lra.
Qed.

Lemma step_pan o st st' :
  step o st = Some st' -> pan_x st' = pan_x st + pan_dx o /\ pan_y st' = pan_y st + pan_dy o.
Proof.
  intros H; destruct o; simpl in H; simpl pan_dx; simpl pan_dy.
  - apply drag_to_Some in H as Hd. unfold drag_to in H; inv_bind H.
    destruct (Nat.ltb RENORMCOUNT (S (count st))); inversion H; subst; simpl; lra.
  - unfold zoom_to in H; inv_bind H; inversion H; subst; simpl; lra.
  - inversion H; subst; simpl; lra.
  - inversion H; subst; simpl; lra.
  - inversion H; subst; simpl; lra.
  - inversion H; subst; simpl; lra.
  - inversion H; subst; simpl; lra.
  - inv_bind H; unfold get_theta, get_angles in Hm; inv_bind Hm; inv_bind Hm0.
    inversion Hm0; inversion Hm; inversion H; subst; simpl; lra.
  - inv_bind H; unfold get_phi, get_angles in Hm; inv_bind Hm; inv_bind Hm0.
    inversion Hm0; inversion Hm; inversion H; subst; simpl; lra.
Qed.

(** The pan offsets only move by [pan_to]: after any successful sequence of
    operations, [pan_x] (resp. [pan_y]) is its start value plus one tenth of
    the sum of the [dx] (resp. [dy]) of the [pan_to] calls; no other
    operation changes them. *)
Theorem run_pan_accumulates :
  forall os st st', run os st = Some st' ->
    pan_x st' = pan_x st + pan_sum pan_dx os /\ pan_y st' = pan_y st + pan_sum pan_dy os.
Proof.
  induction os as [|o os IH]; intros st st' H; simpl in H.
  - inversion H; subst; simpl; lra.
  - inv_bind H. destruct (step_pan o st a Hm). destruct (IH a st' H). simpl; lra.
Qed.

Lemma fmod360_nonneg a : 0 <= a -> 0 <= fmod360 a < 360.
Proof.
  intros Ha. unfold fmod360, trunc.
  destruct (Rle_dec 0 (a / 360)) as [H|H].
  - destruct (base_Int_part (a / 360)) as [H1 H2].
    assert (E : a = a / 360 * 360) by field. lra.
  - exfalso; apply H; unfold Rdiv; apply Rmult_le_pos; lra.
Qed.

Lemma fmod360_neg a : a < 0 -> -360 < fmod360 a <= 0.
Proof.
  intros Ha. unfold fmod360, trunc.
  destruct (Rle_dec 0 (a / 360)) as [H|H].
  - exfalso. assert (a / 360 < 0) by (unfold Rdiv; apply Rmult_neg_pos; [lra | apply Rinv_0_lt_compat; lra]). lra.
  - destruct (base_Int_part (- (a / 360))) as [H1 H2]. rewrite opp_IZR.
    assert (E : a = a / 360 * 360) by field. lra.
Qed.

Lemma fmod360_shift a : exists k : Z, a = fmod360 a + IZR k * 360.
Proof. exists (trunc (a / 360)); unfold fmod360; ring. Qed.

(** The [theta] setter stores [math.fmod(theta, 360)] and re-wraps the
    stored [phi] the same way: each stored angle differs from the given
    one by a whole number of turns, keeps its sign, and lies in
    [0, 360) for a nonnegative input and in (-360, 0] for a negative one. *)
Theorem set_theta_wraps :
  forall st t,
    theta (set_theta st t) = fmod360 t /\ phi (set_theta st t) = fmod360 (phi st) /\
    (exists k : Z, t = theta (set_theta st t) + IZR k * 360) /\
    (0 <= t -> 0 <= theta (set_theta st t) < 360) /\
    (t < 0 -> -360 < theta (set_theta st t) <= 0).
Proof.
  intros st t. unfold set_theta, set_orientation; simpl.
  split; [reflexivity|]. split; [reflexivity|].
  split; [apply fmod360_shift|]. split; [apply fmod360_nonneg | apply fmod360_neg].
Qed.

(** The [phi] setter, symmetrically: it stores [math.fmod(phi, 360)] and
    re-wraps the stored [theta]. *)
Theorem set_phi_wraps :
  forall st p,
    phi (set_phi st p) = fmod360 p /\ theta (set_phi st p) = fmod360 (theta st) /\
    (exists k : Z, p = phi (set_phi st p) + IZR k * 360) /\
    (0 <= p -> 0 <= phi (set_phi st p) < 360) /\
    (p < 0 -> -360 < phi (set_phi st p) <= 0).
Proof.
  intros st p. unfold set_phi, set_orientation; simpl.
  split; [reflexivity|]. split; [reflexivity|].
  split; [apply fmod360_shift|]. split; [apply fmod360_nonneg | apply fmod360_neg].
Qed.

(** [_project(r, x, y)] never raises for a positive radius, and the height
    it returns is positive and at most [r]: every point of the viewport is
    lifted in front of the centre, never above the sphere's top. *)
Theorem project_height_bounds :
  forall r x y, 0 < r ->
    exists z, project r x y = Some z /\ 0 < z <= r.
Proof.
  intros r x y Hr. unfold project.
  rewrite psqrt_Some by nra. simpl. rewrite mul_SQRT1_2.
  set (d := sqrt (x * x + y * y)).
  assert (Hd : 0 <= d) by apply sqrt_pos.
  destruct sqrt2_facts as [H2 H1].
  destruct sqrt2_bounds as [Hs [Hs2 [Hi1 Hi2]]].
  assert (Hrs : r / sqrt 2 = r * (1 / sqrt 2)) by (field; lra).
  destruct (Rlt_dec d (r / sqrt 2)) as [Hlt|Hge].
  - assert (Hdr : d < r) by nra.
    rewrite psqrt_Some by nra. eexists; split; [reflexivity|]. split.
    + apply sqrt_lt_R0; nra.
    + apply Rle_trans with (sqrt (r * r)); [apply sqrt_le_1_alt; nra | rewrite sqrt_square; lra].
  - unfold SQRT2. rewrite pdiv_Some by lra; simpl.
    assert (Hdp : 0 < d) by nra.
    rewrite pdiv_Some by lra.
    eexists; split; [reflexivity|].
    replace (r / sqrt 2 * (r / sqrt 2)) with (r * r / 2)
      by (replace (r / sqrt 2 * (r / sqrt 2)) with (r * r / (sqrt 2 * sqrt 2)) by (field; lra);
          rewrite H2; reflexivity).
    assert (H2d : r <= 2 * d).
    { apply Rnot_lt_le in Hge. rewrite Hrs in Hge.
      assert (Hh : 1 / 2 < 1 / sqrt 2)
        by (apply Rmult_lt_reg_r with (2 * sqrt 2); [lra|];
            replace (1 / 2 * (2 * sqrt 2)) with (sqrt 2) by field;
            replace (1 / sqrt 2 * (2 * sqrt 2)) with 2 by (field; lra); lra).
      nra. }
    split.
    + apply Rdiv_lt_0_compat; [|lra]. apply Rdiv_lt_0_compat; nra.
    + apply Rmult_le_reg_r with d; [lra|]. unfold Rdiv at 1.
      rewrite Rmult_assoc, Rinv_l by lra. nra.
Qed.

Lemma atan_half_angle a x :
  -90 < a < 90 -> x = 0.5 * (a * (PI / 180)) ->
  0 < cos (2 * x) /\ atan (sin (2 * x) / cos (2 * x)) * 180 / PI = a.
Proof.
  intros Ha ->. rewrite dec_half.
  pose proof PI_RGT_0 as Hpi.
  replace (2 * (1 / 2 * (a * (PI / 180)))) with (a * PI / 180) by (field; lra).
  assert (Hb : - (PI / 2) < a * PI / 180 < PI / 2).
  { split; unfold Rdiv; nra. }
  split; [apply cos_gt_0; apply Hb|].
  change (sin (a * PI / 180) / cos (a * PI / 180)) with (tan (a * PI / 180)).
  rewrite atan_tan by exact Hb. field; lra.
Qed.

(** [_get_orientation] inverts [_set_orientation] on the open quarter
    turns: after setting [theta] and [phi] with [-90 < theta < 90] and
    [-90 < phi < 90], the decomposition returns exactly [(theta, phi)]
    (and raises no [ZeroDivisionError]). *)
Theorem orientation_round_trip :
  forall st t p, -90 < t < 90 -> -90 < p < 90 ->
    get_orientation (set_orientation st t p) = Some (t, p).
Proof.
  intros st t p Ht Hp. unfold get_orientation.
  rewrite set_orientation_rotation; simpl.
  set (A := 0.5 * (t * (PI / 180))); set (B := 0.5 * (p * (PI / 180))).
  destruct (atan_half_angle t A Ht eq_refl) as [HcA EA].
  destruct (atan_half_angle p B Hp eq_refl) as [HcB EB].
  pose proof (sin2_cos2 A) as SA; pose proof (sin2_cos2 B) as SB; unfold Rsqr in SA, SB.
  replace (2 * (sin A * cos B * (sin A * sin B) + sin B * cos A * (cos A * cos B)))
    with (sin (2 * B))
    by (rewrite sin_2a; transitivity (2 * sin B * cos B * (sin A * sin A + cos A * cos A));
        [rewrite SA; ring | ring]).
  replace (1 - 2 * (sin A * sin B * (sin A * sin B) + sin B * cos A * (sin B * cos A)))
    with (cos (2 * B))
    by (rewrite cos_2a_sin; transitivity (1 - 2 * (sin B * sin B) * (sin A * sin A + cos A * cos A));
        [rewrite SA; ring | ring]).
  rewrite pdiv_Some by lra; simpl.
  replace (2 * (sin A * cos B * (cos A * cos B) + sin A * sin B * (sin B * cos A)))
    with (sin (2 * A))
    by (rewrite sin_2a; transitivity (2 * sin A * cos A * (sin B * sin B + cos B * cos B));
        [rewrite SB; ring | ring]).
  replace (1 - 2 * (sin B * cos A * (sin B * cos A) + cos A * cos B * (cos A * cos B)))
    with (- cos (2 * A))
    by (rewrite cos_2a_cos; transitivity (1 - 2 * (cos A * cos A) * (sin B * sin B + cos B * cos B));
        [rewrite SB; ring | ring]).
  rewrite pdiv_Some by lra; simpl.
  replace (sin (2 * A) / - cos (2 * A)) with (- (sin (2 * A) / cos (2 * A))) by (field; lra).
  rewrite atan_opp, EB.
  f_equal; f_equal. rewrite <- EA. field. apply PI_neq0.
Qed.

(** [_q_rotmatrix] turns [_q_add] into matrix multiplication: for unit
    quaternions [a] and [b], the matrix of [_q_add(a, b)] is the matrix of
    [b] times the matrix of [a] (all sixteen entries). *)
Theorem rotmatrix_compose :
  forall a b i j, q_length a = 1 -> q_length b = 1 -> (i < 4)%nat -> (j < 4)%nat ->
    mat_entry (q_rotmatrix (q_add a b)) i j =
    mat_mul_entry (q_rotmatrix b) (q_rotmatrix a) i j.
Proof.
  intros a b i j Ha Hb Hi Hj.
  assert (Na : q_dot a a = 1) by (apply sqrt_eq_1_inv; [apply q_dot_nonneg | exact Ha]).
  assert (Nb : q_dot b b = 1) by (apply sqrt_eq_1_inv; [apply q_dot_nonneg | exact Hb]).
  assert (Nab : q_dot (q_add a b) (q_add a b) = 1) by (rewrite q_dot_add, Na, Nb; ring).
  rewrite (rotmatrix_h_eq _ Nab), (rotmatrix_h_eq _ Na), (rotmatrix_h_eq _ Nb).
  destruct a as [a0 a1 a2 a3], b as [b0 b1 b2 b3].
  destruct i as [|[|[|[|i]]]]; try lia; destruct j as [|[|[|[|j]]]]; try lia;
    unfold mat_mul_entry, mat_entry, q_rotmatrix_h, q_dot, q_add, q_append, qv,
      v_add, v_mul, v_cross, v_dot; simpl; ring.
Qed.

(** What [push()] hands to OpenGL in any state reached from a constructor
    call with zoom in [0.25, 10] and distance at least 1, in a viewport of
    positive size: a frustum symmetric about the view axis that [glFrustum]
    accepts ([left < right], [bottom < top], [0 < near < far]); a
    translation that puts the scene's centre at depth [-distance], beyond
    the near plane; and the matrix [_q_rotmatrix] of the current rotation.
    For a zero viewport height it raises [ZeroDivisionError]. *)
Theorem push_valid_frustum :
  forall t p z d os st' vw vh,
    0.25 <= z <= 10 -> 1 <= d -> 0 < vw -> 0 < vh ->
    run os (init t p z d) = Some st' ->
    push vw 0 st' = None /\
    exists l r b tp n f,
      push vw vh st' = Some ((l, r, b, tp, n, f),
                             (pan_x st', pan_y st', - distance st'),
                             q_rotmatrix (rotation st')) /\
      l < r /\ b < tp /\ 0 < n < f /\ l = - r /\ b = - tp /\
      - distance st' < - n.
Proof.
  intros t p z d os st' vw vh Hz Hd Hw Hh Hrun.
  assert (Hr : in_range st') by (apply (run_in_range os (init t p z d)); [split; simpl; assumption | exact Hrun]).
  destruct Hr as [Hzr Hdr].
  assert (Hm : matrix st' = q_rotmatrix (rotation st'))
    by (apply (run_consistent os (init t p z d)); [reflexivity | | exact Hrun];
        change (rotation (init t p z d)) with
          (rotation (set_orientation (Trackball q_identity z d 0%nat [] t p 0 0) t p));
        rewrite set_orientation_unit; lra).
  split; [unfold push; rewrite (proj2 (pdiv_None vw 0) eq_refl); reflexivity|].
  unfold push. rewrite pdiv_Some by lra; simpl. rewrite Hm.
  set (T := tan (35 * PI / 360)).
  assert (HT : 0 < T).
  { pose proof PI_RGT_0. apply tan_gt_0; unfold Rdiv; nra. }
  assert (Htop : 0 < T * 0.1 * zoom st') by (apply Rmult_lt_0_compat; [lra|]; lra).
  assert (Ha : 0 < vw / vh) by (apply Rdiv_lt_0_compat; lra).
  do 6 eexists; split; [reflexivity|].
  split; [nra|]. split; [lra|]. split; [lra|]. split; [ring|]. split; [ring | lra].
Qed.

(** Two rotations about the same axis compose by adding their angles:
    [_q_add(_q_from_axis_angle(v, a), _q_from_axis_angle(v, b))] is
    [_q_from_axis_angle(v, a + b)] for any axis [v] of nonzero length. *)
Theorem from_axis_angle_add :
  forall v a b, v_length v <> 0 ->
    q_add (q_from_axis_angle v a) (q_from_axis_angle v b) = q_from_axis_angle v (a + b).
Proof.
  intros v a b Hv.
  destruct (v_dot_normalize v) as [[_ N]|[H0 _]]; [|contradiction].
  unfold q_from_axis_angle.
  replace ((a + b) / 2) with (a / 2 + b / 2) by field.
  rewrite sin_plus, cos_plus.
  destruct (v_normalize v) as [n0 n1 n2]. unfold v_dot in N; simpl in N.
  unfold q_add, q_append, qv, v_add, v_mul, v_cross, v_dot; simpl. f_equal; try ring.
  transitivity (cos (a / 2) * cos (b / 2) - sin (a / 2) * sin (b / 2) * (n0 * n0 + n1 * n1 + n2 * n2));
    [ring | rewrite N; ring].
Qed.

(** ** Witnesses of the further properties *)

Lemma unit_x_length : q_length (Q4 1 0 0 0) = 1.
Proof.
  assert (E : q_dot (Q4 1 0 0 0) (Q4 1 0 0 0) = 1) by (unfold q_dot; simpl; ring).
  unfold q_length; rewrite E; apply sqrt_1.
Qed.

Lemma unit_z_length : q_length (Q4 0 0 1 0) = 1.
Proof.
  assert (E : q_dot (Q4 0 0 1 0) (Q4 0 0 1 0) = 1) by (unfold q_dot; simpl; ring).
  unfold q_length; rewrite E; apply sqrt_1.
Qed.

Lemma rotmatrix_orthogonal_witness :
  q_length (Q4 1 0 0 0) = 1 /\ row_dot (q_rotmatrix (Q4 1 0 0 0)) 1 2 = 0.
Proof.
  split; [exact unit_x_length|].
  apply (rotmatrix_orthogonal (Q4 1 0 0 0) 1 2 unit_x_length); lia.
Defined.

Lemma reachable_matrix_and_length_witness :
  run [SetTheta 30; PanTo 0 0 1 1] (init 0 0 1 3) =
    Some (pan_to 0 0 1 1 (set_theta (init 0 0 1 3) 30)) /\
  matrix (pan_to 0 0 1 1 (set_theta (init 0 0 1 3) 30)) =
    q_rotmatrix (rotation (pan_to 0 0 1 1 (set_theta (init 0 0 1 3) 30))) /\
  q_length (rotation (pan_to 0 0 1 1 (set_theta (init 0 0 1 3) 30))) <= 1.
Proof.
  assert (Hrun : run [SetTheta 30; PanTo 0 0 1 1] (init 0 0 1 3) =
                 Some (pan_to 0 0 1 1 (set_theta (init 0 0 1 3) 30))) by reflexivity.
  split; [exact Hrun|].
  apply (reachable_matrix_and_length 0 0 1 3 _ _ Hrun).
Defined.

Lemma run_pan_accumulates_witness :
  run [PanTo 0 0 10 20; SetZoom 2; PanTo 5 5 (-3) 1] (init 0 0 1 3) =
    Some (pan_to 5 5 (-3) 1 (set_zoom (pan_to 0 0 10 20 (init 0 0 1 3)) 2)) /\
  pan_x (pan_to 5 5 (-3) 1 (set_zoom (pan_to 0 0 10 20 (init 0 0 1 3)) 2)) =
    pan_x (init 0 0 1 3) + pan_sum pan_dx [PanTo 0 0 10 20; SetZoom 2; PanTo 5 5 (-3) 1].
Proof.
  assert (Hrun : run [PanTo 0 0 10 20; SetZoom 2; PanTo 5 5 (-3) 1] (init 0 0 1 3) =
    Some (pan_to 5 5 (-3) 1 (set_zoom (pan_to 0 0 10 20 (init 0 0 1 3)) 2))) by reflexivity.
  split; [exact Hrun|].
  apply (run_pan_accumulates _ _ _ Hrun).
Defined.

Lemma set_theta_wraps_witness :
  0 <= 370 /\ 0 <= theta (set_theta (init 0 0 1 3) 370) < 360.
Proof.
  split; [lra|].
  apply (proj1 (proj2 (proj2 (proj2 (set_theta_wraps (init 0 0 1 3) 370))))); lra.
Defined.

Lemma set_phi_wraps_witness :
  -400 < 0 /\ -360 < phi (set_phi (init 0 0 1 3) (-400)) <= 0.
Proof.
  split; [lra|].
  apply (proj2 (proj2 (proj2 (proj2 (set_phi_wraps (init 0 0 1 3) (-400)))))); lra.
Defined.

Lemma project_height_bounds_witness :
  0 < TRACKBALLSIZE /\
  exists z, project TRACKBALLSIZE 0.3 0.4 = Some z /\ 0 < z <= TRACKBALLSIZE.
Proof.
  assert (H : 0 < TRACKBALLSIZE) by (unfold TRACKBALLSIZE; lra).
  split; [exact H|]. apply (project_height_bounds TRACKBALLSIZE 0.3 0.4 H).
Defined.

Lemma orientation_round_trip_witness :
  -90 < 30 < 90 /\ -90 < 45 < 90 /\
  get_orientation (set_orientation (init 0 0 1 3) 30 45) = Some (30, 45).
Proof.
  split; [lra|]. split; [lra|].
  apply (orientation_round_trip (init 0 0 1 3) 30 45); lra.
Defined.

Lemma rotmatrix_compose_witness :
  q_length (Q4 1 0 0 0) = 1 /\ q_length (Q4 0 0 1 0) = 1 /\
  mat_entry (q_rotmatrix (q_add (Q4 1 0 0 0) (Q4 0 0 1 0))) 0 1 =
    mat_mul_entry (q_rotmatrix (Q4 0 0 1 0)) (q_rotmatrix (Q4 1 0 0 0)) 0 1.
Proof.
  split; [exact unit_x_length|]. split; [exact unit_z_length|].
  apply (rotmatrix_compose _ _ 0 1 unit_x_length unit_z_length); lia.
Defined.

Lemma push_valid_frustum_witness :
  run [SetZoom 4] (init 0 0 1 3) = Some (set_zoom (init 0 0 1 3) 4) /\
  push 640 0 (set_zoom (init 0 0 1 3) 4) = None /\
  exists l r b tp n f,
    push 640 480 (set_zoom (init 0 0 1 3) 4) =
      Some ((l, r, b, tp, n, f),
            (pan_x (set_zoom (init 0 0 1 3) 4), pan_y (set_zoom (init 0 0 1 3) 4),
             - distance (set_zoom (init 0 0 1 3) 4)),
            q_rotmatrix (rotation (set_zoom (init 0 0 1 3) 4))) /\
    l < r /\ b < tp /\ 0 < n < f /\ l = - r /\ b = - tp /\
    - distance (set_zoom (init 0 0 1 3) 4) < - n.
Proof.
  assert (Hrun : run [SetZoom 4] (init 0 0 1 3) = Some (set_zoom (init 0 0 1 3) 4))
    by reflexivity.
  split; [exact Hrun|].
  apply (push_valid_frustum 0 0 1 3 [SetZoom 4] _ 640 480); try lra. exact Hrun.
Defined.

Lemma from_axis_angle_add_witness :
  v_length (V3 1 0 0) <> 0 /\
  q_add (q_from_axis_angle (V3 1 0 0) 1) (q_from_axis_angle (V3 1 0 0) 2) =
    q_from_axis_angle (V3 1 0 0) (1 + 2).
Proof.
  assert (H : v_length (V3 1 0 0) <> 0).
  { unfold v_length, v_dot; simpl.
    replace (1 * 1 + 0 * 0 + 0 * 0) with 1 by ring. rewrite sqrt_1; lra. }
  split; [exact H|]. apply (from_axis_angle_add _ 1 2 H).
Defined.
